(** * Session orchestrator of server/server-py/main.py

    Shallow embedding of the token store ([cleanup_tokens], [authenticate],
    the token check of [websocket_endpoint]), of the client-receive loop
    ([receive_from_client]) with the library calls it makes ([json.loads],
    [base64.b64decode]), and of the teardown in the [finally] of
    [websocket_endpoint]. *)

From Stdlib Require Import List NArith ZArith QArith String Ascii Bool Lia.
From stdpp Require Import base gmap list strings.

Import ListNotations.
#[local] Set Warnings "-register-all".
Open Scope N_scope.

(** ** Python values *)

(** A Python [str] is a sequence of code points. *)
Definition pystr := list N.

(** [u "abc"] is the Python [str] with the code points of an ASCII literal. *)
Definition u (s : string) : pystr := map N_of_ascii (list_ascii_of_string s).

(** [uq "{'a':1}"] is the same with each apostrophe read as a double
    quote, for JSON texts. *)
Definition uq (s : string) : pystr := map (fun c => if c =? 39 then 34 else c) (u s).

(** Python [bytes]. *)
Definition pybytes := list Byte.byte.

Definition byte_of_N (n : N) : Byte.byte :=
  match Byte.of_N (n mod 256) with Some b => b | None => Byte.x00 end.

(** Truthiness of a [str] or [bytes] value: non-empty. *)
Definition truthy {A} (l : list A) : bool :=
  match l with [] => false | _ => true end.

(** The exceptions that the modelled code can raise. *)
Inductive exn :=
| JSONDecodeError       (* json.JSONDecodeError, a ValueError *)
| RecursionError        (* RecursionError, a RuntimeError *)
| KeyError
| BinasciiError         (* binascii.Error, a ValueError *)
| ValueError
| TypeError
| RuntimeError
| WebSocketDisconnect
| CancelledError.       (* asyncio.CancelledError, a BaseException only *)

(** [isinstance(e, Exception)]. *)
Definition is_exception (e : exn) : bool :=
  match e with CancelledError => false | _ => true end.

(** Computations that return a value or raise. *)
Inductive res (A : Type) := Ok (a : A) | Raise (e : exn).
Arguments Ok {A} a.
Arguments Raise {A} e.

Definition res_bind {A B} (m : res A) (k : A -> res B) : res B :=
  match m with Ok a => k a | Raise e => Raise e end.

Global Instance res_ret : MRet res := fun A a => Ok a.
Global Instance res_mbind : MBind res := fun A B k m => res_bind m k.

(** ** json.loads (CPython's [_json] scanner) *)

(** Decoded JSON values: Python's None, bool, int/float, str, list, dict.
    A number keeps its literal; a dict keeps its (key, value) pairs in
    source order. *)
Inductive json :=
| JNull
| JBool (b : bool)
| JNum (lit : pystr)
| JStr (s : pystr)
| JArr (xs : list json)
| JObj (kvs : list (pystr * json)).

(** [d.get(k)] on a dict built from [kvs]: a repeated key keeps its last
    value. *)
Fixpoint dict_get (k : pystr) (kvs : list (pystr * json)) : option json :=
  match kvs with
  | [] => None
  | (k', v) :: r =>
      match dict_get k r with
      | Some w => Some w
      | None => if bool_decide (k = k') then Some v else None
      end
  end.

(** Recursion headroom. The scanner calls [Py_EnterRecursiveCall] on
    entering each array or object, and it fails once the stack holds
    [sys.getrecursionlimit()] frames (1000 by default); so the nesting
    [json.loads] accepts is that limit less the frames already on the stack
    where it is called, which depends on the caller. That headroom is the
    [limit] argument of [scan_once] and of the functions built on it; the
    statements below hold for every [limit]. *)

(** [sys.int_info.default_max_str_digits]: [int()] of a decimal literal
    with more digits raises ValueError. *)
Definition INT_MAX_STR_DIGITS : nat := 4300.

(** Whitespace skipped by the decoder: [ \t\n\r]. *)
Definition is_ws (c : N) : bool := (c =? 32) || (c =? 9) || (c =? 10) || (c =? 13).

Fixpoint skip_ws (s : pystr) : pystr :=
  match s with
  | c :: r => if is_ws c then skip_ws r else s
  | [] => []
  end.

Definition is_digit (c : N) : bool := (48 <=? c) && (c <=? 57).

Definition hex_val (c : N) : option N :=
  if (48 <=? c) && (c <=? 57) then Some (c - 48)
  else if (65 <=? c) && (c <=? 70) then Some (c - 55)
  else if (97 <=? c) && (c <=? 102) then Some (c - 87)
  else None.

(** The four hex digits of a [\uXXXX] escape. *)
Definition hex4 (s : pystr) : option (N * pystr) :=
  match s with
  | a :: b :: c :: d :: r =>
      match hex_val a, hex_val b, hex_val c, hex_val d with
      | Some a, Some b, Some c, Some d => Some (((a * 16 + b) * 16 + c) * 16 + d, r)
      | _, _, _, _ => None
      end
  | _ => None
  end.

Definition is_high_surrogate (c : N) : bool := (55296 <=? c) && (c <=? 56319).
Definition is_low_surrogate (c : N) : bool := (56320 <=? c) && (c <=? 57343).
Definition join_surrogates (h l : N) : N := 65536 + (h - 55296) * 1024 + (l - 56320).

(** The one-character escapes: quote, backslash, slash, b, f, n, r, t. *)
Definition simple_escape (e : N) : option N :=
  if e =? 34 then Some 34 else if e =? 92 then Some 92
  else if e =? 47 then Some 47 else if e =? 98 then Some 8
  else if e =? 102 then Some 12 else if e =? 110 then Some 10
  else if e =? 114 then Some 13 else if e =? 116 then Some 9
  else None.

(** [scanstring_unicode] in strict mode, from just after the opening quote.
    Every call consumes at least one character, so [S (length s)] is
    enough fuel. *)
Fixpoint scanstring_go (fuel : nat) (acc : pystr) (s : pystr) : res (pystr * pystr) :=
  match fuel with
  | O => Raise JSONDecodeError
  | S f =>
      match s with
      | [] => Raise JSONDecodeError                       (* Unterminated string *)
      | c :: r =>
          if c =? 34 then Ok (rev acc, r)
          else if c =? 92 then
            match r with
            | [] => Raise JSONDecodeError
            | e :: r1 =>
                if e =? 117 then
                  match hex4 r1 with
                  | None => Raise JSONDecodeError                 (* Invalid \uXXXX escape *)
                  | Some (h, r2) =>
                      if is_high_surrogate h then
                        match r2 with
                        | b :: v :: r3 =>
                            if (b =? 92) && (v =? 117) then
                              match hex4 r3 with
                              | None => Raise JSONDecodeError
                              | Some (l, r4) =>
                                  if is_low_surrogate l
                                  then scanstring_go f (join_surrogates h l :: acc) r4
                                  else scanstring_go f (h :: acc) r2
                              end
                            else scanstring_go f (h :: acc) r2
                        | _ => scanstring_go f (h :: acc) r2
                        end
                      else scanstring_go f (h :: acc) r2
                  end
                else
                  match simple_escape e with
                  | Some c' => scanstring_go f (c' :: acc) r1
                  | None => Raise JSONDecodeError                 (* Invalid \escape *)
                  end
            end
          else if c <? 32 then Raise JSONDecodeError              (* Invalid control character *)
          else scanstring_go f (c :: acc) r
      end
  end.

Definition scanstring (s : pystr) : res (pystr * pystr) :=
  scanstring_go (S (length s)) [] s.

Fixpoint strip_prefix (p s : pystr) : option pystr :=
  match p, s with
  | [], _ => Some s
  | a :: p', b :: s' => if a =? b then strip_prefix p' s' else None
  | _ :: _, [] => None
  end.

(** The constants recognised by [scan_once_unicode] before numbers. *)
Definition match_constant (s : pystr) : option (json * pystr) :=
  match strip_prefix (u "null") s with Some r => Some (JNull, r) | None =>
  match strip_prefix (u "true") s with Some r => Some (JBool true, r) | None =>
  match strip_prefix (u "false") s with Some r => Some (JBool false, r) | None =>
  match strip_prefix (u "NaN") s with Some r => Some (JNum (u "NaN"), r) | None =>
  match strip_prefix (u "Infinity") s with Some r => Some (JNum (u "Infinity"), r) | None =>
  match strip_prefix (u "-Infinity") s with Some r => Some (JNum (u "-Infinity"), r) | None =>
  None end end end end end end.

Fixpoint span_digits (s : pystr) : pystr * pystr :=
  match s with
  | c :: r => if is_digit c then let '(ds, r') := span_digits r in (c :: ds, r') else ([], s)
  | [] => ([], [])
  end.

(** [_match_number_unicode]: an optional minus, then 0 or a non-zero
    digit followed by digits, then an optional fraction (a dot and at least
    one digit), then an optional exponent (e or E, an optional sign, at least
    one digit; dropped if it has no digit). No match is "Expecting value". An
    integer literal is converted by [int()] and a float one by [float()]. *)
Definition match_number (s : pystr) : res (json * pystr) :=
  let '(sign, s1) :=
    match s with c :: r => if c =? 45 then ([c], r) else ([], s) | [] => ([], s) end in
  match s1 with
  | [] => Raise JSONDecodeError
  | c :: r =>
      let ip :=
        if c =? 48 then Some ([c], r)
        else if (49 <=? c) && (c <=? 57) then let '(ds, r') := span_digits r in Some (c :: ds, r')
        else None in
      match ip with
      | None => Raise JSONDecodeError
      | Some (ints, s2) =>
          let '(frac, s3) :=
            match s2 with
            | d :: e :: r' =>
                if (d =? 46) && is_digit e
                then let '(ds, r'') := span_digits r' in (d :: e :: ds, r'')
                else ([], s2)
            | _ => ([], s2)
            end in
          let '(ex, s4) :=
            match s3 with
            | e :: r' =>
                if (e =? 101) || (e =? 69) then
                  let '(sg, r1) :=
                    match r' with
                    | c' :: r'' => if (c' =? 43) || (c' =? 45) then ([c'], r'') else ([], r')
                    | [] => ([], r')
                    end in
                  match span_digits r1 with
                  | (d :: ds, r2) => (e :: sg ++ d :: ds, r2)
                  | ([], _) => ([], s3)
                  end
                else ([], s3)
            | [] => ([], s3)
            end in
          (* a literal without fraction or exponent goes through int(), which
             refuses more than INT_MAX_STR_DIGITS digits *)
          match frac, ex with
          | [], [] =>
              if Nat.ltb INT_MAX_STR_DIGITS (length ints) then Raise ValueError
              else Ok (JNum (sign ++ ints), s4)
          | _, _ => Ok (JNum (sign ++ ints ++ frac ++ ex), s4)
          end
      end
  end.

(** [scan_once_unicode], [_parse_object_unicode] and [_parse_array_unicode].
    [depth] counts the [Py_EnterRecursiveCall]s in progress and [limit] is the
    headroom left when [json.loads] was called. Along any chain
    of calls, two consecutive calls consume at least one character, so
    [2 * length s + 2] is enough fuel. *)
Fixpoint scan_once (limit fuel depth : nat) (s : pystr) {struct fuel} : res (json * pystr) :=
  match fuel with
  | O => Raise JSONDecodeError
  | S f =>
      match s with
      | [] => Raise JSONDecodeError                                  (* Expecting value *)
      | c :: r =>
          if c =? 34 then '(k, r') ← scanstring r; Ok (JStr k, r')
          else if c =? 123 then
            if Nat.ltb depth limit then
              match skip_ws r with
              | d :: r' => if d =? 125 then Ok (JObj [], r') else object_items limit f (S depth) [] (d :: r')
              | [] => Raise JSONDecodeError
              end
            else Raise RecursionError
          else if c =? 91 then
            if Nat.ltb depth limit then
              match skip_ws r with
              | d :: r' => if d =? 93 then Ok (JArr [], r') else array_items limit f (S depth) [] (d :: r')
              | [] => Raise JSONDecodeError
              end
            else Raise RecursionError
          else
            match match_constant s with
            | Some (v, r') => Ok (v, r')
            | None => match_number s
            end
      end
  end
with object_items (limit fuel depth : nat) (acc : list (pystr * json)) (s : pystr) {struct fuel}
  : res (json * pystr) :=
  match fuel with
  | O => Raise JSONDecodeError
  | S f =>
      match s with
      | c :: r =>
          if c =? 34 then
            '(k, r1) ← scanstring r;
            match skip_ws r1 with
            | d :: r2 =>
                if d =? 58 then
                  '(v, r3) ← scan_once limit f depth (skip_ws r2);
                  match skip_ws r3 with
                  | e :: r4 =>
                      if e =? 125 then Ok (JObj (rev ((k, v) :: acc)), r4)
                      else if e =? 44 then object_items limit f depth ((k, v) :: acc) (skip_ws r4)
                      else Raise JSONDecodeError                  (* Expecting ',' delimiter *)
                  | [] => Raise JSONDecodeError
                  end
                else Raise JSONDecodeError                        (* Expecting ':' delimiter *)
            | [] => Raise JSONDecodeError
            end
          else Raise JSONDecodeError      (* Expecting property name enclosed in double quotes *)
      | [] => Raise JSONDecodeError
      end
  end
with array_items (limit fuel depth : nat) (acc : list json) (s : pystr) {struct fuel}
  : res (json * pystr) :=
  match fuel with
  | O => Raise JSONDecodeError
  | S f =>
      '(v, r1) ← scan_once limit f depth s;
      match skip_ws r1 with
      | e :: r2 =>
          if e =? 93 then Ok (JArr (rev (v :: acc)), r2)
          else if e =? 44 then array_items limit f depth (v :: acc) (skip_ws r2)
          else Raise JSONDecodeError                              (* Expecting ',' delimiter *)
      | [] => Raise JSONDecodeError
      end
  end.

(** [json.loads(s)] on a [str]: [JSONDecoder.decode], which skips leading
    whitespace, scans one value and refuses anything but whitespace after
    it ("Extra data"). *)
Definition json_loads (limit : nat) (s : pystr) : res json :=
  '(v, r) ← scan_once limit (2 * length s + 2) 0 (skip_ws s);
  match skip_ws r with
  | [] => Ok v
  | _ => Raise JSONDecodeError
  end.

(** ** base64.b64decode (validate=False) *)

(** [table_a2b_base64]: the value of a base64 alphabet character. *)
Definition b64_value (c : N) : option N :=
  if (65 <=? c) && (c <=? 90) then Some (c - 65)
  else if (97 <=? c) && (c <=? 122) then Some (c - 71)
  else if (48 <=? c) && (c <=? 57) then Some (c + 4)
  else if c =? 43 then Some 62
  else if c =? 47 then Some 63
  else None.

(** The loop of [binascii.a2b_base64] in non-strict mode: characters outside
    the alphabet are skipped; a pad [=] ends the input once the quad is
    complete ([quad_pos + ++pads >= 4], with [pads] counted from
    [quad_pos >= 2] only); a quad left open at the end of the input is
    "Incorrect padding" (or one data character too many). [acc] holds the
    output bytes, last first. *)
Fixpoint a2b_base64_go (quad_pos leftchar pads : N) (acc : pybytes) (s : pystr) : res pybytes :=
  match s with
  | [] => if quad_pos =? 0 then Ok (rev acc) else Raise BinasciiError
  | c :: r =>
      if c =? 61 then
        if 2 <=? quad_pos then
          if 4 <=? quad_pos + (pads + 1) then Ok (rev acc)
          else a2b_base64_go quad_pos leftchar (pads + 1) acc r
        else a2b_base64_go quad_pos leftchar pads acc r
      else
        match b64_value c with
        | None => a2b_base64_go quad_pos leftchar pads acc r
        | Some v =>
            if quad_pos =? 0 then a2b_base64_go 1 v 0 acc r
            else if quad_pos =? 1 then
              a2b_base64_go 2 (N.land v 15)
                0 (byte_of_N (N.lor (N.shiftl leftchar 2) (N.shiftr v 4)) :: acc) r
            else if quad_pos =? 2 then
              a2b_base64_go 3 (N.land v 3)
                0 (byte_of_N (N.lor (N.shiftl leftchar 4) (N.shiftr v 2)) :: acc) r
            else
              a2b_base64_go 0 0
                0 (byte_of_N (N.lor (N.shiftl leftchar 6) v) :: acc) r
        end
  end.

(** [base64.b64decode(s)] on a decoded JSON value: a [str] must be ASCII
    ([_bytes_from_decode_data] raises ValueError otherwise); anything that is
    neither [str] nor bytes-like raises TypeError. *)
Definition b64decode (v : json) : res pybytes :=
  match v with
  | JStr s => if forallb (fun c => c <? 128) s then a2b_base64_go 0 0 0 [] s else Raise ValueError
  | _ => Raise TypeError
  end.

(** ** The input multiplexer: [receive_from_client] *)

(** The three [asyncio.Queue]s, as the lists of items put so far. The queues
    are unbounded, so [put] never waits or fails. *)
Record queues := mk_queues {
  audio_input_queue : list pybytes;
  video_input_queue : list pybytes;
  text_input_queue : list pystr
}.

Definition queues_empty : queues := mk_queues [] [] [].

Definition put_audio (q : queues) (b : pybytes) : queues :=
  mk_queues (audio_input_queue q ++ [b]) (video_input_queue q) (text_input_queue q).
Definition put_video (q : queues) (b : pybytes) : queues :=
  mk_queues (audio_input_queue q) (video_input_queue q ++ [b]) (text_input_queue q).
Definition put_text (q : queues) (t : pystr) : queues :=
  mk_queues (audio_input_queue q) (video_input_queue q) (text_input_queue q ++ [t]).

(** An ASGI ["websocket.receive"] message: the ["bytes"] and ["text"] keys,
    [None] when absent. *)
Record message := mk_message {
  msg_bytes : option pybytes;
  msg_text : option pystr
}.

(** The messages the ASGI server delivers for a binary and a text frame. *)
Definition binary_frame (b : pybytes) : message := mk_message (Some b) None.
Definition text_frame (t : pystr) : message := mk_message None (Some t).

(** [isinstance(payload, dict) and payload.get("type") == "image"]. *)
Definition is_image_directive (payload : json) : bool :=
  match payload with
  | JObj kvs =>
      match dict_get (u "type") kvs with
      | Some (JStr t) => bool_decide (t = u "image")
      | _ => false
      end
  | _ => false
  end.

(** [isinstance(payload, dict) and "realtime_input" in payload]. *)
Definition has_realtime_input (payload : json) : bool :=
  match payload with
  | JObj kvs => if dict_get (u "realtime_input") kvs then true else false
  | _ => false
  end.

(** How the [try] body of the text branch ends: at the [continue] of the
    image branch, or by falling through to the text put. *)
Inductive text_flow := Continued (q : queues) | FellThrough.

(** The [try] body: [json.loads], then the image branch or the
    [realtime_input] branch (a [pass]). *)
Definition classify_text (limit : nat) (q : queues) (text : pystr) : res text_flow :=
  payload ← json_loads limit text;
  if is_image_directive payload then
    match payload with
    | JObj kvs =>
        match dict_get (u "data") kvs with
        | None => Raise KeyError                                  (* payload["data"] *)
        | Some d => image_data ← b64decode d; Ok (Continued (put_video q image_data))
        end
    | _ => Ok FellThrough
    end
  else if has_realtime_input payload then Ok FellThrough        (* pass *)
  else Ok FellThrough.

(** The text branch: the [try] with its [except json.JSONDecodeError: pass],
    then [await text_input_queue.put(text)] unless the body continued. *)
Definition handle_text (limit : nat) (q : queues) (text : pystr) : res queues :=
  match classify_text limit q text with
  | Ok (Continued q') => Ok q'
  | Ok FellThrough => Ok (put_text q text)
  | Raise JSONDecodeError => Ok (put_text q text)
  | Raise e => Raise e
  end.

(** One iteration of the [while True] loop, after [websocket.receive()]. *)
Definition recv_step (limit : nat) (q : queues) (m : message) : res queues :=
  let text_branch :=
    match msg_text m with
    | Some text => if truthy text then handle_text limit q text else Ok q
    | None => Ok q
    end in
  match msg_bytes m with
  | Some b => if truthy b then Ok (put_audio q b) else text_branch
  | None => text_branch
  end.

(** [receive_from_client] over the messages the client sends before it
    disconnects: it returns the final queues and the exception that ended
    the loop, which one of the two handlers caught and logged. The loop ends
    only by an exception: [websocket.receive()] does not raise
    [WebSocketDisconnect]; it returns the disconnect message, which has
    neither key and so enqueues nothing, and the next [receive()] raises
    RuntimeError, caught by [except Exception]. *)
Fixpoint receive_from_client (limit : nat) (q : queues) (ms : list message) : queues * exn :=
  match ms with
  | [] => (q, RuntimeError)
  | m :: rest =>
      match recv_step limit q m with
      | Ok q' => receive_from_client limit q' rest
      | Raise e => (q, e)
      end
  end.

(** [receive_task], the task that runs [receive_from_client], with the
    [receive_task.cancel()] of the endpoint's [finally]. The task can wait
    only at [websocket.receive()] (the queues are unbounded, so [put] never
    waits, and the [receive()] after the disconnect message raises before
    it waits). [k] says when the cancellation comes: while the task waits
    for message number [k], counting from 0, where number [length ms] is the
    disconnect message. If the loop has already ended by then, the
    cancellation does nothing. Otherwise [CancelledError] is raised at that
    [await]; it is a [BaseException] only, so neither [except
    WebSocketDisconnect] nor [except Exception] catches it, and the task
    ends with it. *)
Fixpoint receive_task_run (limit : nat) (q : queues) (ms : list message) (k : nat) : queues * exn :=
  match ms with
  | [] =>
      match k with
      | O => (q, CancelledError)
      | S _ => (q, RuntimeError)
      end
  | m :: rest =>
      match k with
      | O => (q, CancelledError)
      | S k' =>
          match recv_step limit q m with
          | Ok q' => receive_task_run limit q' rest k'
          | Raise e => (q, e)
          end
      end
  end.

(** ** The token store *)

Open Scope Q_scope.

(** [valid_tokens: Dict[str, float]]: token to [time.time()] at issuance,
    with times as exact rationals. *)
Abbreviation token_store := (gmap pystr Q).

Definition TOKEN_EXPIRY_SECONDS : Q := 30.
Definition SESSION_TIME_LIMIT : Z := 180.

(** [cleanup_tokens()]: keeps the tokens with
    [not (current_time - ts > TOKEN_EXPIRY_SECONDS)]. *)
Definition cleanup_tokens (current_time : Q) (valid_tokens : token_store) : token_store :=
  filter (fun kv => Qle_bool (current_time - kv.2) TOKEN_EXPIRY_SECONDS = true) valid_tokens.

(** [authenticate]: [session_token] is the fresh [str(uuid.uuid4())];
    [current_time] is the [time.time()] read by [cleanup_tokens] (line 57)
    and [issued_at] the later [time.time()] stored with the token (line 80).
    The response is the token and [SESSION_TIME_LIMIT]. *)
Definition authenticate (current_time issued_at : Q) (session_token : pystr)
  (valid_tokens : token_store) : (pystr * Z) * token_store :=
  ((session_token, SESSION_TIME_LIMIT),
   <[session_token := issued_at]> (cleanup_tokens current_time valid_tokens)).

(** The outcome of the token check of [websocket_endpoint]. *)
Inductive auth_outcome :=
| Unauthorized (code : Z) (reason : string)   (* websocket.close(code, reason); return *)
| Authenticated.                              (* the session goes on *)

(** Lines 96-103: [if not token or token not in valid_tokens: close(4003,
    "Unauthorized"); return], else [del valid_tokens[token]]. *)
Definition validate_token (token : option pystr) (valid_tokens : token_store)
  : auth_outcome * token_store :=
  let reject := (Unauthorized 4003%Z "Unauthorized", valid_tokens) in
  match token with
  | Some t =>
      if truthy t then
        match valid_tokens !! t with
        | Some _ => (Authenticated, delete t valid_tokens)
        | None => reject
        end
      else reject
  | None => reject
  end.

(** Requests to the process: a [POST /api/auth] with its two clock readings
    and the uuid it draws, or a [GET /ws] at a time [time.time()] with its
    [token] query parameter. *)
Inductive request :=
| PostAuth (now issued_at : Q) (fresh_uuid : pystr)
| WsConnect (now : Q) (token : option pystr).

Inductive response :=
| TokenIssued (session_token : pystr) (session_time_limit : Z)
| WsAuth (o : auth_outcome).

(** The requests served in order, each with the store left by the previous
    one; [WsConnect] reads no clock, as the code does not. *)
Fixpoint serve (valid_tokens : token_store) (rs : list request) : list response * token_store :=
  match rs with
  | [] => ([], valid_tokens)
  | PostAuth now issued t :: rest =>
      let '((tok, lim), st) := authenticate now issued t valid_tokens in
      let '(out, st') := serve st rest in (TokenIssued tok lim :: out, st')
  | WsConnect _ tok :: rest =>
      let '(o, st) := validate_token tok valid_tokens in
      let '(out, st') := serve st rest in (WsAuth o :: out, st')
  end.

Close Scope Q_scope.

(** ** The session governor: the [try]/[except]/[finally] of lines 182-201 *)

(** The state of [receive_task]: still running, finished (the loop ended),
    or cancelled. *)
Inductive task_state := TaskPending | TaskDone | TaskCancelled.

(** Starlette's [WebSocket.application_state]. *)
Inductive ws_state := WsConnected | WsDisconnected.

Record conn := mk_conn {
  receive_task : task_state;
  application_state : ws_state;
  client_gone : bool;                 (* the transport fails on send *)
  close_frames : list (Z * string)    (* close frames that reached the client *)
}.

(** [receive_task.cancel()]: requests cancellation of a pending task and
    returns [True]; on a finished or cancelled task it does nothing and
    returns [False]. It never raises. *)
Definition task_cancel (c : conn) : conn * bool :=
  match receive_task c with
  | TaskPending =>
      (mk_conn TaskCancelled (application_state c) (client_gone c) (close_frames c), true)
  | _ => (c, false)
  end.

(** Starlette's [websocket.close(code, reason)]: once the close message is
    sent the application state is [DISCONNECTED] (also when the transport
    fails, which raises [WebSocketDisconnect]); a second close raises
    RuntimeError ("Unexpected ASGI message websocket.close"). *)
Definition ws_close (code : Z) (reason : string) (c : conn) : conn * option exn :=
  match application_state c with
  | WsConnected =>
      if client_gone c
      then (mk_conn (receive_task c) WsDisconnected true (close_frames c), Some WebSocketDisconnect)
      else (mk_conn (receive_task c) WsDisconnected false (close_frames c ++ [(code, reason)]), None)
  | WsDisconnected => (c, Some RuntimeError)
  end.

(** How [asyncio.wait_for(run_session(), timeout=SESSION_TIME_LIMIT)] ends. *)
Inductive session_end :=
| SessionCompleted          (* run_session returned *)
| SessionTimedOut           (* asyncio.TimeoutError *)
| SessionFault (e : exn).   (* run_session raised e *)

(** The [finally] block: [receive_task.cancel()], then
    [try: await websocket.close() except: pass]. *)
Definition teardown (c : conn) : conn :=
  let '(c1, _) := task_cancel c in
  let '(c2, _) := ws_close 1000%Z EmptyString c1 in
  c2.

(** Lines 182-201. Returns the connection after the [finally] block and the
    exception that leaves [websocket_endpoint], if any. *)
Definition governor (e : session_end) (c : conn) : conn * option exn :=
  let '(c1, escaping) :=
    match e with
    | SessionCompleted => (c, None)
    | SessionTimedOut =>
        (* try: close(1000, ...) except RuntimeError: ... except Exception: ... *)
        let '(c', err) := ws_close 1000%Z "Session time limit reached" c in
        match err with
        | Some x => if is_exception x then (c', None) else (c', Some x)
        | None => (c', None)
        end
    | SessionFault x =>
        (* except Exception as e: logger.error(...) *)
        if is_exception x then (c, None) else (c, Some x)
    end in
  (teardown c1, escaping).

(** ** The setup message: lines 107-117 of [websocket_endpoint] *)

(** [websocket.receive_text()] on the next message, [None] standing for the
    client's disconnect message: Starlette raises [WebSocketDisconnect] on
    it, and [message["text"]] raises KeyError on a binary frame. *)
Definition receive_text (m : option message) : res pystr :=
  match m with
  | None => Raise WebSocketDisconnect
  | Some msg =>
      match msg_text msg with
      | Some t => Ok t
      | None => Raise KeyError
      end
  end.

(** [p in s] on two [str]s: substring test. *)
Fixpoint str_contains (p s : pystr) : bool :=
  match s with
  | [] => if strip_prefix p [] then true else false
  | _ :: r => if strip_prefix p s then true else str_contains p r
  end.

(** [k in v] for a [str] key and a decoded JSON value: key membership for a
    dict, element equality for a list, substring for a [str]; None, bool
    and numbers raise TypeError. *)
Definition py_contains (k : pystr) (v : json) : res bool :=
  match v with
  | JObj kvs => Ok (if dict_get k kvs then true else false)
  | JArr xs =>
      Ok (existsb (fun x => match x with JStr s => bool_decide (s = k) | _ => false end) xs)
  | JStr s => Ok (str_contains k s)
  | _ => Raise TypeError
  end.

(** [v[k]] for a [str] key: a dict lookup (KeyError when absent); a list or
    a [str] indexed by a [str], and the scalars, raise TypeError. *)
Definition py_getitem (v : json) (k : pystr) : res json :=
  match v with
  | JObj kvs => match dict_get k kvs with Some w => Ok w | None => Raise KeyError end
  | _ => Raise TypeError
  end.

(** Lines 108-117: [setup_config = None], then inside a
    [try ... except Exception]: read one text message, [json.loads] it and,
    if ["setup" in initial_data], take [initial_data["setup"]]. Python's
    None is [JNull]. *)
Definition read_setup (limit : nat) (m : option message) : json :=
  let attempt : res json :=
    message ← receive_text m;
    initial_data ← json_loads limit message;
    has_setup ← py_contains (u "setup") initial_data;
    match has_setup with
    | true => py_getitem initial_data (u "setup")
    | false => Ok JNull
    end in
  match attempt with
  | Ok v => v
  | Raise _ => JNull        (* logger.warning(...) *)
  end.

(** ** config_utils.get_project_id *)

Definition PLACEHOLDER_PROJECT_ID : pystr := u "your-project-id".

(** [get_project_id()]: [env_project_id] is [os.getenv("PROJECT_ID")];
    [auth_default] is the project id returned by [google.auth.default()],
    or the exception it raises. *)
Definition get_project_id (env_project_id : option pystr) (auth_default : res (option pystr))
  : res pystr :=
  let fallback :=
    match auth_default with
    | Ok (Some auth_project_id) =>
        if truthy auth_project_id then Ok auth_project_id else Ok PLACEHOLDER_PROJECT_ID
    | Ok None => Ok PLACEHOLDER_PROJECT_ID
    | Raise e => if is_exception e then Ok PLACEHOLDER_PROJECT_ID else Raise e
    end in
  match env_project_id with
  | Some p =>
      if truthy p && negb (bool_decide (p = PLACEHOLDER_PROJECT_ID)) then Ok p else fallback
  | None => fallback
  end.

(** ** Counting over a request trace *)

(** Whether a request is an [/api/auth] that issues [t]. *)
Definition issues (t : pystr) (r : request) : bool :=
  match r with PostAuth _ _ t' => bool_decide (t' = t) | WsConnect _ _ => false end.

(** Whether a request is a [/ws] connection with token [t] that the response
    authenticates. *)
Definition admits (t : pystr) (r : request) (o : response) : bool :=
  match r, o with
  | WsConnect _ (Some t'), WsAuth Authenticated => bool_decide (t' = t)
  | _, _ => false
  end.

Fixpoint count_admitted (t : pystr) (rs : list request) (out : list response) : nat :=
  match rs, out with
  | r :: rs', o :: out' => (if admits t r o then 1 else 0) + count_admitted t rs' out'
  | _, _ => 0
  end%nat.

Definition count_issued (t : pystr) (rs : list request) : nat :=
  length (List.filter (issues t) rs).

(** 1 when [t] is in the store, else 0. *)
Definition stored (t : pystr) (st : token_store) : nat :=
  match st !! t with Some _ => 1 | None => 0 end%nat.

(** ** Lemmas *)

Lemma json_loads_empty (limit : nat) : json_loads limit [] = Raise JSONDecodeError.
Proof. reflexivity. Qed.

Lemma json_loads_ok_truthy (limit : nat) (t : pystr) (v : json) : json_loads limit t = Ok v -> truthy t = true.
Proof. destruct t as [|c t]; [rewrite json_loads_empty; discriminate | reflexivity]. Qed.

Lemma recv_step_text (limit : nat) (q : queues) (t : pystr) :
  truthy t = true -> recv_step limit q (text_frame t) = handle_text limit q t.
Proof. intros H. unfold recv_step; simpl. now rewrite H. Qed.

Lemma handle_text_fall_through (limit : nat) (q : queues) (t : pystr) (v : json) :
  json_loads limit t = Ok v -> is_image_directive v = false -> handle_text limit q t = Ok (put_text q t).
Proof.
  intros Hj Himg. unfold handle_text, classify_text. rewrite Hj.
  cbn [mbind res_mbind res_bind]. rewrite Himg.
  destruct (has_realtime_input v); reflexivity.
Qed.


Lemma a2b_base64_go_raises qp lc pads acc s e :
  a2b_base64_go qp lc pads acc s = Raise e -> e = BinasciiError.
Proof.
  revert qp lc pads acc. induction s as [|c s IH]; intros qp lc pads acc H; simpl in H.
  - destruct (qp =? 0); congruence.
  - repeat match goal with
           | H : context [if ?b then _ else _] |- _ => destruct b
           | H : context [match ?o with Some _ => _ | None => _ end] |- _ => destruct o
           end; first [congruence | eapply IH; eassumption].
Qed.

Lemma b64decode_raises d e :
  b64decode d = Raise e -> e = BinasciiError \/ e = ValueError \/ e = TypeError.
Proof.
  destruct d; simpl; intros H; try (inversion H; auto; fail).
  destruct (forallb _ _).
  - left. eapply a2b_base64_go_raises; eassumption.
  - inversion H; auto.
Qed.

Lemma cleanup_tokens_absent (now : Q) (st : token_store) (t : pystr) :
  st !! t = None -> cleanup_tokens now st !! t = None.
Proof. intros H. unfold cleanup_tokens. rewrite map_lookup_filter, H. reflexivity. Qed.

Lemma validate_token_absent (st : token_store) (t : pystr) (tok : option pystr) :
  st !! t = None -> (snd (validate_token tok st)) !! t = None.
Proof.
  intros H. unfold validate_token.
  destruct tok as [t'|]; [|exact H].
  destruct (truthy t'); [|exact H].
  destruct (st !! t') eqn:E; [|exact H].
  simpl. destruct (decide (t = t')) as [->|Hne].
  - apply lookup_delete_eq.
  - rewrite lookup_delete_ne by congruence. exact H.
Qed.

Lemma serve_post_auth (st : token_store) (n n' : Q) (t : pystr) (rs : list request) :
  serve st (PostAuth n n' t :: rs)
  = let '(out, st') := serve (<[t := n']> (cleanup_tokens n st)) rs in
    (TokenIssued t SESSION_TIME_LIMIT :: out, st').
Proof. reflexivity. Qed.

Lemma serve_ws_connect (st : token_store) (n : Q) (tok : option pystr) (rs : list request) :
  serve st (WsConnect n tok :: rs)
  = let '(o, st1) := validate_token tok st in
    let '(out, st') := serve st1 rs in (WsAuth o :: out, st').
Proof. reflexivity. Qed.

Lemma validate_token_insert (t : pystr) (n : Q) (m : token_store) :
  truthy t = true ->
  validate_token (Some t) (<[t := n]> m) = (Authenticated, delete t (<[t := n]> m)).
Proof. intros Ht. unfold validate_token. rewrite Ht, lookup_insert_eq. reflexivity. Qed.

Definition unauthorized : auth_outcome := Unauthorized 4003%Z "Unauthorized".

(** Once a token is out of the store and no later [/api/auth] draws it, every
    connection that presents it is refused. *)
Lemma serve_absent_token (st : token_store) (t : pystr) (rs : list request) :
  st !! t = None ->
  (forall now issued, ~ In (PostAuth now issued t) rs) ->
  forall i now, rs !! i = Some (WsConnect now (Some t)) ->
  (fst (serve st rs)) !! i = Some (WsAuth unauthorized).
Proof.
  revert st. induction rs as [|r rs IH]; intros st Hst Hfresh i now Hi; [discriminate|].
  destruct r as [n n' t' | n tok]; simpl.
  - destruct (serve (<[t' := n']> (cleanup_tokens n st)) rs) as [out st'] eqn:E.
    destruct i as [|i]; [discriminate|]. simpl in Hi |- *.
    assert (Ht' : t' <> t) by (intros ->; apply (Hfresh n n'); left; reflexivity).
    assert (Habs : (<[t' := n']> (cleanup_tokens n st)) !! t = None).
    { rewrite lookup_insert_ne by congruence. now apply cleanup_tokens_absent. }
    pose proof (IH _ Habs (fun now' issued' Hin => Hfresh now' issued' (or_intror Hin)) i now Hi) as HIH.
    rewrite E in HIH. exact HIH.
  - destruct (validate_token tok st) as [o st1] eqn:Ev.
    destruct (serve st1 rs) as [out st'] eqn:E.
    destruct i as [|i]; simpl in Hi |- *.
    + injection Hi as _ ->. unfold validate_token in Ev.
      destruct (truthy t); [rewrite Hst in Ev|]; injection Ev as <- _; reflexivity.
    + assert (Habs : st1 !! t = None).
      { pose proof (validate_token_absent st t tok Hst) as H. rewrite Ev in H. exact H. }
      pose proof (IH _ Habs (fun now' issued' Hin => Hfresh now' issued' (or_intror Hin)) i now Hi) as HIH.
      rewrite E in HIH. exact HIH.
Qed.

(** * Claims *)

(** ** Token store *)

(** C1 (code_bug). A token issued at time 0 is accepted by [/ws] at time 31,
    after its 30 seconds have passed, when no [/api/auth] ran in between: the
    token check of [websocket_endpoint] reads no clock and does not sweep,
    and the only sweep ([cleanup_tokens]) runs in [authenticate]. *)
Lemma expired_token_accepted :
  let tok := u "9b2f6c1e-3d4a-4f5b-8c7d-2e1f0a9b8c7d" in
  serve ∅ [PostAuth 0%Q 0%Q tok; WsConnect 31%Q (Some tok)]
  = ([TokenIssued tok SESSION_TIME_LIMIT; WsAuth Authenticated], ∅).
Proof. vm_compute. reflexivity. Qed.

(** C3. For every issued token (a non-empty uuid that [/api/auth] never
    draws again), issuing it and presenting it to [/ws] succeeds and removes
    it from the store, and every later [/ws] connection with the same token
    is refused: a token is usable at most once. *)
Lemma token_used_at_most_once (st : token_store) (t : pystr) (t0 t0' t1 : Q) (rs : list request) :
  truthy t = true ->
  (forall now issued, ~ In (PostAuth now issued t) rs) ->
  take 2 (fst (serve st (PostAuth t0 t0' t :: WsConnect t1 (Some t) :: rs)))
    = [TokenIssued t SESSION_TIME_LIMIT; WsAuth Authenticated] /\
  (snd (serve st [PostAuth t0 t0' t; WsConnect t1 (Some t)])) !! t = None /\
  (forall i now, rs !! i = Some (WsConnect now (Some t)) ->
     (fst (serve st (PostAuth t0 t0' t :: WsConnect t1 (Some t) :: rs))) !! (2 + i)%nat
       = Some (WsAuth unauthorized)).
Proof.
  intros Ht Hfresh.
  rewrite !serve_post_auth, !serve_ws_connect, !(validate_token_insert _ _ _ Ht). simpl.
  destruct (serve (delete t (<[t:=t0']> (cleanup_tokens t0 st))) rs) as [out st'] eqn:E.
  simpl. split; [reflexivity|]. split.
  - apply lookup_delete_eq.
  - intros i now Hi.
    pose proof (serve_absent_token (delete t (<[t:=t0']> (cleanup_tokens t0 st))) t rs
                (lookup_delete_eq _ _) Hfresh i now Hi) as H.
    rewrite E in H. exact H.
Qed.

Lemma token_used_at_most_once_witness :
  let tok := u "9b2f6c1e-3d4a-4f5b-8c7d-2e1f0a9b8c7d" in
  let rs := [PostAuth 5%Q 5%Q (u "0c1d2e3f-4a5b-4c6d-8e7f-8091a2b3c4d5"); WsConnect 6%Q (Some tok)] in
  take 2 (fst (serve ∅ (PostAuth 0%Q 0%Q tok :: WsConnect 1%Q (Some tok) :: rs)))
    = [TokenIssued tok SESSION_TIME_LIMIT; WsAuth Authenticated] /\
  (snd (serve ∅ [PostAuth 0%Q 0%Q tok; WsConnect 1%Q (Some tok)])) !! tok = None /\
  (forall i now, rs !! i = Some (WsConnect now (Some tok)) ->
     (fst (serve ∅ (PostAuth 0%Q 0%Q tok :: WsConnect 1%Q (Some tok) :: rs))) !! (2 + i)%nat
       = Some (WsAuth unauthorized)).
Proof.
  apply token_used_at_most_once.
  - reflexivity.
  - intros now issued [H|[H|[]]]; [injection H as _ _ H; vm_compute in H; discriminate H | discriminate H].
Defined.

(** C8. A connection whose [token] query parameter is missing, empty or not
    in the store is closed with code 4003 and reason "Unauthorized", starts
    no session, and leaves the store unchanged. *)
Lemma unauthorized_leaves_store (st : token_store) (tok : option pystr) :
  (tok = None \/ tok = Some [] \/ exists t, tok = Some t /\ st !! t = None) ->
  validate_token tok st = (Unauthorized 4003%Z "Unauthorized", st).
Proof.
  intros [->|[->|[t [-> Ht]]]]; try reflexivity.
  unfold validate_token. rewrite Ht. destruct (truthy t); reflexivity.
Qed.

Lemma unauthorized_leaves_store_witness :
  let st := <[u "9b2f6c1e-3d4a-4f5b-8c7d-2e1f0a9b8c7d" := 0%Q]> (∅ : token_store) in
  validate_token (Some (u "forged")) st = (Unauthorized 4003%Z "Unauthorized", st).
Proof.
  apply unauthorized_leaves_store. right. right.
  exists (u "forged"). split; [reflexivity | vm_compute; reflexivity].
Defined.

(** ** Input multiplexer *)

Definition realtime_frame : pystr := uq "{'realtime_input':{}}".


(** C2 (code_bug). A text frame that decodes to a dict with a
    [realtime_input] key and without [type == "image"] is put, as its raw
    text, on the text channel: the [realtime_input] branch ends in [pass]
    without the [continue] of the image branch, and falls through to
    [text_input_queue.put(text)]. *)
Lemma realtime_input_falls_through_to_text (limit : nat) (q : queues) (t : pystr) kvs :
  json_loads limit t = Ok (JObj kvs) ->
  has_realtime_input (JObj kvs) = true ->
  is_image_directive (JObj kvs) = false ->
  recv_step limit q (text_frame t) = Ok (put_text q t).
Proof.
  intros Hj _ Himg.
  rewrite recv_step_text by exact (json_loads_ok_truthy _ _ _ Hj).
  exact (handle_text_fall_through limit q t _ Hj Himg).
Qed.

Lemma realtime_input_falls_through_to_text_witness :
  json_loads 100 realtime_frame = Ok (JObj [(u "realtime_input", JObj [])]) /\
  recv_step 100 queues_empty (text_frame realtime_frame)
    = Ok (put_text queues_empty realtime_frame).
Proof.
  split; [vm_compute; reflexivity|].
  apply (realtime_input_falls_through_to_text 100 queues_empty realtime_frame
           [(u "realtime_input", JObj [])]); vm_compute; reflexivity.
Defined.




(** C5 (counterexample). The one-frame sequence [b''] reaches the audio
    channel as nothing: [message["bytes"]] is falsy. *)
Lemma empty_binary_frame_dropped :
  (forall limit : nat,
     audio_input_queue (fst (receive_from_client limit queues_empty (map binary_frame [[]]))) = []) /\
  ([] : list pybytes) <> [[]].
Proof. split; [reflexivity | discriminate]. Qed.

(** C5 (amended). For every sequence of binary frames, the audio channel
    receives exactly the non-empty payloads, in the order sent, none
    duplicated; the empty ones are dropped; the image and text channels
    receive nothing. *)
Lemma binary_frames_in_order (limit : nat) (q : queues) (bs : list pybytes) :
  fst (receive_from_client limit q (map binary_frame bs))
  = mk_queues (audio_input_queue q ++ List.filter truthy bs)
              (video_input_queue q) (text_input_queue q).
Proof.
  revert q. induction bs as [|b bs IH]; intros q; simpl.
  - rewrite app_nil_r. destruct q; reflexivity.
  - unfold recv_step; simpl. destruct (truthy b) eqn:Hb.
    + rewrite IH. simpl. rewrite <- app_assoc. reflexivity.
    + exact (IH q).
Qed.




(** C9. An empty binary frame and an empty text frame put nothing on any
    channel, and the loop goes on reading. *)
Lemma empty_frames_skipped (limit : nat) (q : queues) (rest : list message) :
  recv_step limit q (binary_frame []) = Ok q /\
  recv_step limit q (text_frame []) = Ok q /\
  receive_from_client limit q (binary_frame [] :: rest) = receive_from_client limit q rest /\
  receive_from_client limit q (text_frame [] :: rest) = receive_from_client limit q rest.
Proof. repeat split. Qed.

(** C10. A text frame that decodes to a dict with [type == "image"] whose
    [data] is missing or does not decode raises an exception other than
    [JSONDecodeError]: nothing is put on any channel, and the loop ends with
    that exception, caught by [except Exception]. *)
Lemma bad_image_frame_ends_loop (limit : nat) (q : queues) (t : pystr) kvs (rest : list message) :
  json_loads limit t = Ok (JObj kvs) ->
  is_image_directive (JObj kvs) = true ->
  (dict_get (u "data") kvs = None \/
   exists d e, dict_get (u "data") kvs = Some d /\ b64decode d = Raise e) ->
  exists e, e <> JSONDecodeError /\ is_exception e = true /\
    recv_step limit q (text_frame t) = Raise e /\
    receive_from_client limit q (text_frame t :: rest) = (q, e).
Proof.
  intros Hj Himg Hd.
  assert (Hstep : exists e, e <> JSONDecodeError /\ is_exception e = true /\
                            recv_step limit q (text_frame t) = Raise e).
  { rewrite recv_step_text by exact (json_loads_ok_truthy _ _ _ Hj).
    unfold handle_text, classify_text. rewrite Hj.
    cbn [mbind res_mbind res_bind]. rewrite Himg.
    destruct Hd as [Hd|[d [e [Hd Hb]]]]; rewrite Hd.
    - exists KeyError. repeat split; discriminate.
    - cbn [mbind res_mbind res_bind]. rewrite Hb.
      exists e. destruct (b64decode_raises d e Hb) as [ -> | [ -> | -> ] ];
        repeat split; discriminate. }
  destruct Hstep as [e [He [Hexc Hs]]].
  exists e. repeat split; try assumption.
  simpl. rewrite Hs. reflexivity.
Qed.

Lemma bad_image_frame_ends_loop_witness :
  exists e, e <> JSONDecodeError /\ is_exception e = true /\
    recv_step 100 queues_empty (text_frame (uq "{'type':'image'}")) = Raise e /\
    receive_from_client 100 queues_empty
      (text_frame (uq "{'type':'image'}") :: [binary_frame [Byte.x01]])
      = (queues_empty, e).
Proof.
  apply (bad_image_frame_ends_loop 100 queues_empty (uq "{'type':'image'}")
           [(u "type", JStr (u "image"))]).
  - vm_compute. reflexivity.
  - vm_compute. reflexivity.
  - left. reflexivity.
Defined.

(** ** Session governor *)

(** C7. On every exit from [asyncio.wait_for] (completion, timeout, any
    fault), the [finally] teardown runs: afterwards the receive task is no
    longer pending (a pending one is cancelled, a finished one left as it
    is) and the socket is closed; no exception of the cancel or of either
    close leaves the governor (only a fault that is not an [Exception], such
    as [CancelledError], is re-raised, and it is the session's own); on a
    finished task and a closed socket the teardown changes nothing, so
    running it twice is running it once. *)
Lemma teardown_on_every_exit (e : session_end) (c : conn) :
  (exists c1, fst (governor e c) = teardown c1) /\
  receive_task (fst (governor e c))
    = (match receive_task c with TaskPending => TaskCancelled | s => s end) /\
  application_state (fst (governor e c)) = WsDisconnected /\
  (forall x, snd (governor e c) = Some x -> e = SessionFault x /\ is_exception x = false) /\
  (receive_task c <> TaskPending -> application_state c = WsDisconnected -> teardown c = c) /\
  teardown (teardown c) = teardown c.
Proof.
  destruct c as [task st gone frames].
  refine (conj _ (conj _ (conj _ (conj _ (conj _ _))))).
  - unfold governor. destruct e as [| |x].
    + exists (mk_conn task st gone frames). reflexivity.
    + destruct (ws_close _ _ _) as [c' [err|]]; [destruct (is_exception err)|]; eexists; reflexivity.
    + destruct (is_exception x); eexists; reflexivity.
  - destruct e as [| |x], task, st, gone; try reflexivity;
      unfold governor; cbn; try destruct (is_exception x); reflexivity.
  - destruct e as [| |x], task, st, gone; try reflexivity;
      unfold governor; cbn; try destruct (is_exception x); reflexivity.
  - intros y. unfold governor.
    destruct e as [| |x], task, st, gone; cbn; try discriminate;
      destruct (is_exception x) eqn:Hx; cbn; try discriminate;
      intros H; injection H as <-; auto.
  - intros Htask Hst. simpl in Htask, Hst. subst st.
    destruct task; [now exfalso; apply Htask | reflexivity | reflexivity].
  - destruct task, st, gone; reflexivity.
Qed.

(** * Further properties *)

(** ** Errors of [json.loads] *)

Lemma scanstring_go_raises (fuel : nat) (acc s : pystr) (e : exn) :
  scanstring_go fuel acc s = Raise e -> e = JSONDecodeError.
Proof.
  revert acc s. induction fuel as [|f IH]; intros acc s H; simpl in H; [congruence|].
  repeat case_match; simplify_eq; eauto.
Qed.

Lemma scanstring_raises (s : pystr) (e : exn) :
  scanstring s = Raise e -> e = JSONDecodeError.
Proof. apply scanstring_go_raises. Qed.

Lemma match_number_raises (s : pystr) (e : exn) :
  match_number s = Raise e -> e = JSONDecodeError \/ e = ValueError.
Proof. unfold match_number. intros H. repeat case_match; simplify_eq; eauto. Qed.

Lemma scan_once_raises (limit fuel : nat) :
  (forall (d : nat) (s : pystr) (e : exn),
     scan_once limit fuel d s = Raise e ->
     e = JSONDecodeError \/ e = RecursionError \/ e = ValueError) /\
  (forall (d : nat) (acc : list (pystr * json)) (s : pystr) (e : exn),
     object_items limit fuel d acc s = Raise e ->
     e = JSONDecodeError \/ e = RecursionError \/ e = ValueError) /\
  (forall (d : nat) (acc : list json) (s : pystr) (e : exn),
     array_items limit fuel d acc s = Raise e ->
     e = JSONDecodeError \/ e = RecursionError \/ e = ValueError).
Proof.
  induction fuel as [|f (IH1 & IH2 & IH3)]; split_and!; intros * H; simpl in H;
    unfold mbind, res_mbind, res_bind in H; try (left; congruence).
  all: repeat case_match; simplify_eq; eauto;
    match goal with
    | Hs : scanstring _ = Raise _ |- _ => left; eapply scanstring_raises; exact Hs
    | Hn : match_number _ = Raise _ |- _ =>
        destruct (match_number_raises _ _ Hn) as [ -> | -> ]; auto
    end.
Qed.

Lemma json_loads_raises (limit : nat) (s : pystr) (e : exn) :
  json_loads limit s = Raise e -> e = JSONDecodeError \/ e = RecursionError \/ e = ValueError.
Proof.
  unfold json_loads, mbind, res_mbind, res_bind.
  destruct (scan_once limit _ _ _) as [[v r]|e0] eqn:E; intros H.
  - destruct (skip_ws r); inversion H; auto.
  - inversion H; subst. eapply (proj1 (scan_once_raises _ _)); eassumption.
Qed.

(** ** The receive loop *)

Lemma classify_text_raises (limit : nat) (q : queues) (t : pystr) (e : exn) :
  classify_text limit q t = Raise e ->
  e = JSONDecodeError \/ e = RecursionError \/ e = KeyError \/
  e = BinasciiError \/ e = ValueError \/ e = TypeError.
Proof.
  unfold classify_text, mbind, res_mbind, res_bind.
  destruct (json_loads limit t) as [v|e0] eqn:E; intros H.
  - repeat case_match; simplify_eq; auto 7.
    match goal with Hb : b64decode _ = Raise _ |- _ =>
      destruct (b64decode_raises _ _ Hb) as [ -> | [ -> | -> ] ] end; auto 7.
  - inversion H; subst. destruct (json_loads_raises _ _ _ E) as [ -> | [ -> | -> ] ]; auto 6.
Qed.

Lemma recv_step_raises (limit : nat) (q : queues) (m : message) (e : exn) :
  recv_step limit q m = Raise e ->
  e = RecursionError \/ e = KeyError \/ e = BinasciiError \/ e = ValueError \/ e = TypeError.
Proof.
  unfold recv_step, handle_text. intros H.
  repeat case_match; simplify_eq;
    match goal with Hc : classify_text limit _ _ = Raise ?x |- _ =>
      destruct (classify_text_raises _ _ _ _ Hc) as [Hx|[Hx|[Hx|[Hx|[Hx|Hx]]]]];
      inversion Hx; auto 6
    end.
Qed.

(** What one iteration of the loop does to the queues. *)
Lemma recv_step_cases (limit : nat) (q q' : queues) (m : message) :
  recv_step limit q m = Ok q' ->
  (q' = q /\ (forall b, msg_bytes m = Some b -> b = []) /\
             (forall t, msg_text m = Some t -> t = [])) \/
  (exists b, msg_bytes m = Some b /\ b <> [] /\ q' = put_audio q b) \/
  (exists t img, (forall b, msg_bytes m = Some b -> b = []) /\
                 msg_text m = Some t /\ t <> [] /\ q' = put_video q img) \/
  (exists t, (forall b, msg_bytes m = Some b -> b = []) /\
             msg_text m = Some t /\ t <> [] /\ q' = put_text q t).
Proof.
  destruct m as [[b|] [t|]]; unfold recv_step; simpl;
    try (destruct b as [|x b]; simpl); try (destruct t as [|y t]; simpl);
    intros H; simplify_eq;
    try (left; split_and!; [reflexivity | intros ? Hb; now inversion Hb | intros ? Ht; now inversion Ht]);
    try (right; left; eexists; split_and!; [reflexivity | discriminate | reflexivity]).
  all: unfold handle_text in H; right; right.
  all: destruct (classify_text limit q (y :: t)) as [[q1|]|[]] eqn:Ec; simplify_eq.
  all: try (right; eexists; split_and!; [intros ? Hb; now inversion Hb | reflexivity
                                         | discriminate | reflexivity]).
  all: left; unfold classify_text, mbind, res_mbind, res_bind in Ec;
    repeat case_match; simplify_eq;
    eexists _, _; split_and!; [intros ? Hb; now inversion Hb | reflexivity
                               | discriminate | reflexivity].
Qed.

(** ** The token store *)

Lemma stored_cleanup_tokens (now : Q) (st : token_store) (t : pystr) :
  (stored t (cleanup_tokens now st) <= stored t st)%nat.
Proof.
  unfold stored. destruct (st !! t) eqn:E.
  - destruct (cleanup_tokens now st !! t); lia.
  - rewrite cleanup_tokens_absent by exact E. lia.
Qed.

Lemma stored_validate_token (n : Q) (tok : option pystr) (st : token_store) (t : pystr) :
  ((if admits t (WsConnect n tok) (WsAuth (fst (validate_token tok st))) then 1 else 0)
   + stored t (snd (validate_token tok st)) <= stored t st)%nat.
Proof.
  unfold validate_token. destruct tok as [t'|]; simpl; [|lia].
  destruct (truthy t'); simpl; [|lia].
  destruct (st !! t') eqn:E; simpl; [|lia].
  unfold stored. case_bool_decide as Heq.
  - subst t'. rewrite lookup_delete_eq, E. lia.
  - rewrite lookup_delete_ne by congruence. lia.
Qed.

Lemma stored_insert_eq (t : pystr) (n : Q) (m : token_store) :
  stored t (<[t := n]> m) = 1%nat.
Proof. unfold stored. now rewrite lookup_insert_eq. Qed.

Lemma stored_insert_ne (t t' : pystr) (n : Q) (m : token_store) :
  t' <> t -> stored t (<[t' := n]> m) = stored t m.
Proof. intros H. unfold stored. now rewrite lookup_insert_ne. Qed.

Lemma serve_stored_invariant (st : token_store) (rs : list request) (t : pystr) :
  (count_admitted t rs (fst (serve st rs)) + stored t (snd (serve st rs))
   <= count_issued t rs + stored t st)%nat.
Proof.
  revert st. induction rs as [|r rs IH]; intros st; [simpl; lia|].
  destruct r as [n n' t' | n tok].
  - rewrite serve_post_auth.
    specialize (IH (<[t' := n']> (cleanup_tokens n st))).
    destruct (serve (<[t' := n']> (cleanup_tokens n st)) rs) as [out st'] eqn:E. simpl in IH |- *.
    unfold count_issued in IH |- *. simpl.
    pose proof (stored_cleanup_tokens n st t) as Hc.
    case_bool_decide as Heq; simpl.
    + subst t'. rewrite stored_insert_eq in IH. lia.
    + rewrite stored_insert_ne in IH by exact Heq. lia.
  - rewrite serve_ws_connect.
    pose proof (stored_validate_token n tok st t) as Hv.
    destruct (validate_token tok st) as [o st1] eqn:Ev. simpl in Hv.
    specialize (IH st1).
    destruct (serve st1 rs) as [out st'] eqn:E. simpl in IH |- *.
    unfold count_issued in IH |- *. simpl. lia.
Qed.

(** ** The governor *)

(** * Properties of the code *)

(** ** Token store *)

(** X4. Over any sequence of requests, the connections that are accepted with
    a token [t] are at most as many as the [/api/auth] calls that issued [t],
    plus one if [t] was in the store at the start. *)
Theorem admissions_bounded_by_issues (st : token_store) (rs : list request) (t : pystr) :
  (count_admitted t rs (fst (serve st rs)) <= count_issued t rs + stored t st)%nat.
Proof. pose proof (serve_stored_invariant st rs t). lia. Qed.

(** X5. A token in the store after a sequence of requests was in the store at
    the start or was issued by one of the [/api/auth] calls: the server never
    stores a token it did not issue. *)
Theorem stored_tokens_were_issued (st : token_store) (rs : list request) (t : pystr) :
  is_Some (snd (serve st rs) !! t) ->
  is_Some (st !! t) \/ exists n n', In (PostAuth n n' t) rs.
Proof.
  intros [ts Hts]. pose proof (serve_stored_invariant st rs t) as Hinv.
  unfold stored at 1 in Hinv. rewrite Hts in Hinv.
  destruct (st !! t) as [x|] eqn:E; [left; now eexists|right].
  unfold stored, count_issued in Hinv. rewrite E in Hinv.
  destruct (List.filter (issues t) rs) as [|r l] eqn:Ef; [simpl in Hinv; lia|].
  assert (Hin : In r (List.filter (issues t) rs)) by (rewrite Ef; left; reflexivity).
  apply filter_In in Hin as [Hin Hr].
  destruct r as [n n' t'|n tok]; simpl in Hr; [|discriminate].
  case_bool_decide; [subst t'|discriminate]. now exists n, n'.
Qed.

Theorem stored_tokens_were_issued_witness :
  is_Some (snd (serve ∅ [PostAuth 0%Q 0%Q (u "a"); PostAuth 10%Q 10%Q (u "b")]) !! u "b") /\
  (is_Some ((∅ : token_store) !! u "b") \/
   exists n n', In (PostAuth n n' (u "b")) [PostAuth 0%Q 0%Q (u "a"); PostAuth 10%Q 10%Q (u "b")]).
Proof.
  assert (H : is_Some (snd (serve ∅ [PostAuth 0%Q 0%Q (u "a"); PostAuth 10%Q 10%Q (u "b")]) !! u "b"))
    by (eexists; vm_compute; reflexivity).
  split; [exact H | exact (stored_tokens_were_issued ∅ _ _ H)].
Defined.

(** ** Setup message *)

(** X6. The setup configuration is the value under ["setup"] when the first
    message is a text frame whose JSON is an object with that key, and None
    in every other case: a disconnect, a binary frame, text on which
    [json.loads] raises (invalid JSON, an integer literal of more than 4300
    digits, nesting beyond the recursion headroom [limit]), a list or a
    string that contains ["setup"], or any other value. No exception leaves
    the setup read. *)
Theorem read_setup_result (limit : nat) (m : option message) :
  read_setup limit m =
  match m with
  | Some msg =>
      match msg_text msg with
      | Some t =>
          match json_loads limit t with
          | Ok (JObj kvs) => match dict_get (u "setup") kvs with Some v => v | None => JNull end
          | _ => JNull
          end
      | None => JNull
      end
  | None => JNull
  end.
Proof.
  destruct m as [msg|]; [|reflexivity].
  unfold read_setup, receive_text, mbind, res_mbind, res_bind.
  destruct (msg_text msg) as [t|]; [|reflexivity].
  destruct (json_loads limit t) as [v|e]; [|reflexivity].
  destruct v; simpl; repeat case_match; simplify_eq; reflexivity.
Qed.

(** ** Input multiplexer *)

(** X7. When one received frame is processed without raising (a frame on
    which the loop raises, such as [{"type":"image"}] with its KeyError,
    puts nothing and ends the loop), it puts at most one item on at most one
    queue: a non-empty binary payload on the audio queue, or, for a
    non-empty text (with no non-empty binary payload), one image on the
    video queue or the text itself on the text queue; a frame with neither
    leaves the queues unchanged. *)
Theorem recv_step_one_queue (limit : nat) (q q' : queues) (m : message) :
  recv_step limit q m = Ok q' ->
  (q' = q /\ (forall b, msg_bytes m = Some b -> b = []) /\
             (forall t, msg_text m = Some t -> t = [])) \/
  (exists b, msg_bytes m = Some b /\ b <> [] /\ q' = put_audio q b) \/
  (exists t img, (forall b, msg_bytes m = Some b -> b = []) /\
                 msg_text m = Some t /\ t <> [] /\ q' = put_video q img) \/
  (exists t, (forall b, msg_bytes m = Some b -> b = []) /\
             msg_text m = Some t /\ t <> [] /\ q' = put_text q t).
Proof. apply recv_step_cases. Qed.

Theorem recv_step_one_queue_witness :
  recv_step 100 queues_empty (text_frame (u "hi")) = Ok (put_text queues_empty (u "hi")) /\
  ((put_text queues_empty (u "hi") = queues_empty /\
    (forall b, msg_bytes (text_frame (u "hi")) = Some b -> b = []) /\
    (forall t, msg_text (text_frame (u "hi")) = Some t -> t = [])) \/
   (exists b, msg_bytes (text_frame (u "hi")) = Some b /\ b <> [] /\
              put_text queues_empty (u "hi") = put_audio queues_empty b) \/
   (exists t img, (forall b, msg_bytes (text_frame (u "hi")) = Some b -> b = []) /\
                  msg_text (text_frame (u "hi")) = Some t /\ t <> [] /\
                  put_text queues_empty (u "hi") = put_video queues_empty img) \/
   (exists t, (forall b, msg_bytes (text_frame (u "hi")) = Some b -> b = []) /\
              msg_text (text_frame (u "hi")) = Some t /\ t <> [] /\
              put_text queues_empty (u "hi") = put_text queues_empty t)).
Proof.
  assert (H : recv_step 100 queues_empty (text_frame (u "hi")) = Ok (put_text queues_empty (u "hi")))
    by (vm_compute; reflexivity).
  split; [exact H | exact (recv_step_one_queue _ _ _ _ H)].
Defined.

(** X9. A run of frames that carry no binary payload leaves the audio queue
    as it was. *)
Theorem text_frames_leave_audio (limit : nat) (q : queues) (ms : list message) :
  Forall (fun m => msg_bytes m = None) ms ->
  audio_input_queue (fst (receive_from_client limit q ms)) = audio_input_queue q.
Proof.
  revert q. induction ms as [|m ms IH]; intros q Hms; simpl; [reflexivity|].
  inversion Hms as [|? ? Hm Hrest]; subst.
  destruct (recv_step limit q m) as [q'|e] eqn:E; [|reflexivity].
  rewrite (IH q' Hrest).
  apply recv_step_cases in E as
    [ (-> & _ & _) | [ (b & Hb & _ & _) | [ (t & img & _ & _ & _ & ->) | (t & _ & _ & _ & ->) ] ] ];
    [reflexivity | congruence | reflexivity | reflexivity].
Qed.

Theorem text_frames_leave_audio_witness :
  Forall (fun m => msg_bytes m = None) [text_frame (u "hi"); text_frame (u "x")] /\
  audio_input_queue (fst (receive_from_client 100 (put_audio queues_empty [Byte.x01])
                           [text_frame (u "hi"); text_frame (u "x")]))
  = audio_input_queue (put_audio queues_empty [Byte.x01]).
Proof.
  assert (H : Forall (fun m => msg_bytes m = None) [text_frame (u "hi"); text_frame (u "x")])
    by (repeat constructor).
  split; [exact H | exact (text_frames_leave_audio _ _ _ H)].
Defined.

(** X10. [receive_task] ends either with the [CancelledError] of
    [receive_task.cancel()], which is not an [Exception], so no handler of
    the loop catches it; or by the loop's own end, with RecursionError,
    KeyError, binascii.Error, ValueError, TypeError or RuntimeError (the
    [receive()] after the disconnect), each an [Exception], so one of its
    handlers catches it. It never ends with a [JSONDecodeError]. When the
    cancellation comes after the disconnect message has been read, it
    changes nothing: the task ends as [receive_from_client] does. *)
Theorem receive_task_exit (limit : nat) (q : queues) (ms : list message) (k : nat) :
  ((snd (receive_task_run limit q ms k) = CancelledError /\
    is_exception (snd (receive_task_run limit q ms k)) = false) \/
   ((snd (receive_task_run limit q ms k) = RecursionError \/
     snd (receive_task_run limit q ms k) = KeyError \/
     snd (receive_task_run limit q ms k) = BinasciiError \/
     snd (receive_task_run limit q ms k) = ValueError \/
     snd (receive_task_run limit q ms k) = TypeError \/
     snd (receive_task_run limit q ms k) = RuntimeError) /\
    is_exception (snd (receive_task_run limit q ms k)) = true)) /\
  snd (receive_task_run limit q ms k) <> JSONDecodeError /\
  ((length ms < k)%nat -> receive_task_run limit q ms k = receive_from_client limit q ms).
Proof.
  revert q k. induction ms as [|m ms IH]; intros q k.
  - destruct k as [|k]; simpl.
    + split_and!; [left; auto | discriminate | lia].
    + split_and!; [right; split; [auto 7 | reflexivity] | discriminate | reflexivity].
  - destruct k as [|k]; simpl.
    + split_and!; [left; auto | discriminate | lia].
    + destruct (recv_step limit q m) as [q'|e] eqn:E.
      * destruct (IH q' k) as (H1 & H2 & H3). split_and!; [exact H1 | exact H2 |].
        intros Hk. apply H3. lia.
      * simpl. destruct (recv_step_raises _ _ _ _ E) as [ -> | [ -> | [ -> | [ -> | -> ] ] ] ];
          split_and!; try (right; split; [auto 7 | reflexivity]); try discriminate; auto.
Qed.

(** ** Project id *)

(** X11. [get_project_id] returns a non-empty project id; it raises only when
    [google.auth.default()] raises an exception that is not an
    [Exception], and then it is that exception. *)
Theorem get_project_id_nonempty (env_project_id : option pystr) (auth_default : res (option pystr)) :
  match get_project_id env_project_id auth_default with
  | Ok p => p <> []
  | Raise e => auth_default = Raise e /\ is_exception e = false
  end.
Proof.
  unfold get_project_id.
  destruct env_project_id as [p|];
    [destruct (truthy p && negb (bool_decide (p = PLACEHOLDER_PROJECT_ID))) eqn:Hp|].
  - apply andb_prop in Hp as [Hp _]. destruct p; [discriminate|congruence].
  - destruct auth_default as [[a|]|e]; [destruct a|..]; try destruct (is_exception e) eqn:?;
      simpl; auto; discriminate.
  - destruct auth_default as [[a|]|e]; [destruct a|..]; try destruct (is_exception e) eqn:?;
      simpl; auto; discriminate.
Qed.

(** ** Governor *)

(** X13. Across the governor and its [finally], the client receives at most
    one close frame, code 1000: with the reason "Session time limit reached"
    on a timeout and with an empty reason otherwise; none if the socket was
    already closed or the client is gone. *)
Theorem governor_close_frames (e : session_end) (c : conn) :
  close_frames (fst (governor e c)) =
  close_frames c ++
  match application_state c, client_gone c with
  | WsConnected, false =>
      [(1000%Z, match e with
                | SessionTimedOut => "Session time limit reached"%string
                | _ => EmptyString
                end)]
  | _, _ => []
  end.
Proof.
  destruct c as [task st gone frames].
  unfold governor, teardown, task_cancel, ws_close.
  destruct e as [| |x]; [| |destruct (is_exception x)];
    destruct task, st, gone; simpl; rewrite ?app_nil_r; reflexivity.
Qed.
